(** * Bounded retry with exponential backoff and jitter

    A shallow embedding of [vendor/deno.land/std@0.190.0/async/retry.ts]
    and the properties of [retry] and [_exponentialBackoffWithJitter].

    Modelling conventions.
    - A JavaScript [number] is an exact rational ([Qc], canonical
      fractions, so that equality is Leibniz equality).  Rounding, [NaN]
      and the infinities of IEEE doubles are outside the model.
    - The optional fields of [RetryOptions] are [option]s: [None] is an
      omitted field.
    - The operation [fn] is a transformer of the part of the program state
      it can reach: a private state of its closure and the heap holding the
      option objects of the caller.  Awaiting a promise that rejects and a
      synchronous [throw] are the same outcome, [Throws].
    - [Math.random()] is an oracle [rnd]: the [n]-th draw of the run is
      [rnd n].
    - [setTimeout] and the invocations of [fn] are recorded in a trace.
    - The argument [opts] is [undefined] or the address of an object in the
      heap; an address without an object reads as [undefined]. *)

From Stdlib Require Import QArith Qcanon Qround.
From stdpp Require Import base numbers strings gmap list.

Local Open Scope Qc_scope.

(** ** Data *)

(** Values that an operation returns or throws ([unknown] in the source). *)
Inductive value : Type :=
  | VUndefined
  | VNum (n : Qc)
  | VStr (s : string).

(** [interface RetryOptions], and [Required<RetryOptions>]: the same four
    fields, optional in the first and present in the second. *)
Record Options (F : Type → Type) : Type := mkOptions {
  multiplier : F Qc;
  maxTimeout : F Qc;
  maxAttempts : F Qc;
  minTimeout : F Qc;
}.
Arguments mkOptions {F}.
Arguments multiplier {F}.
Arguments maxTimeout {F}.
Arguments maxAttempts {F}.
Arguments minTimeout {F}.

Definition RetryOptions : Type := Options option.
Definition Required_RetryOptions : Type := Options (λ T, T).

Definition defaultRetryOptions : Required_RetryOptions :=
  {| multiplier := Qc_of_Z 2;
     maxTimeout := Qc_of_Z 60000;
     maxAttempts := Qc_of_Z 5;
     minTimeout := Qc_of_Z 1000 |}.

(** The object a caller writes to pass the four documented defaults. *)
Definition explicit_defaults : RetryOptions :=
  {| multiplier := Some (Qc_of_Z 2);
     maxTimeout := Some (Qc_of_Z 60000);
     maxAttempts := Some (Qc_of_Z 5);
     minTimeout := Some (Qc_of_Z 1000) |}.

(** The object literal [{...d, ...opts}]: every field present in [opts]
    overrides the one of [d]; spreading [undefined] adds nothing. *)
Definition spread (d : Required_RetryOptions) (opts : option RetryOptions)
    : Required_RetryOptions :=
  match opts with
  | None => d
  | Some o =>
      {| multiplier := default (multiplier d) (multiplier o);
         maxTimeout := default (maxTimeout d) (maxTimeout o);
         maxAttempts := default (maxAttempts d) (maxAttempts o);
         minTimeout := default (minTimeout d) (minTimeout o) |}
  end.

(** What a rejected [retry] promise carries.  [RetryError cause count] is
    [new RetryError(cause, count)]: [count] is the number interpolated in
    the message [Exceeded max retry count (${count})]. *)
Inductive Reason : Type :=
  | PreconditionError (msg : string)
  | RetryError (cause : value) (count : Qc).

Inductive Completion : Type :=
  | Fulfilled (v : value)
  | Rejected (r : Reason).

(** Modelled from the spec: the helper [assert] of [../_util/asserts.ts] is
    imported by [retry.ts] but its file is not part of the sources.  Per the
    spec a failed check is a precondition failure raised before any attempt
    is made; a check that holds has no effect. *)
Definition assert (expr : bool) (msg : string) : option Reason :=
  if expr then None else Some (PreconditionError msg).

Inductive Outcome : Type :=
  | Returns (v : value)
  | Throws (err : value).

Inductive Event : Type :=
  | Invoke
  | Sleep (ms : Qc).

(** Number of invocations of the operation recorded in a trace, and the
    delays passed to [setTimeout], oldest first. *)
Fixpoint invocations (t : list Event) : nat :=
  match t with
  | [] => 0
  | Invoke :: t => S (invocations t)
  | Sleep _ :: t => invocations t
  end.

Fixpoint sleeps (t : list Event) : list Qc :=
  match t with
  | [] => []
  | Invoke :: t => sleeps t
  | Sleep ms :: t => ms :: sleeps t
  end.

Definition Math_min (a b : Qc) : Qc := if decide (a ≤ b) then a else b.

Definition Qc_of_nat (n : nat) : Qc := Qc_of_Z (Z.of_nat n).

(** Enough fuel for [for (let i = 0; i < n; i++)]: the number of naturals
    below [n]. *)
Definition attempt_budget (n : Qc) : nat := Z.to_nat (Qceiling n).

Section Retry.

(** Private state of the closure [fn]. *)
Context {St : Type}.
(** The draws of [Math.random()]. *)
Variable rnd : nat → Qc.

Record Store : Type := mkStore {
  priv : St;
  heap : gmap positive RetryOptions;
}.

Record World : Type := mkWorld {
  store : Store;
  trace : list Event;
  draws : nat;
}.

Definition Operation : Type := Store → Outcome * Store.

(** [await fn()] *)
Definition call (fn : Operation) (w : World) : Outcome * World :=
  let '(o, s) := fn (store w) in
  (o, {| store := s; trace := trace w ++ [Invoke]; draws := draws w |}).

(** [await new Promise((r) => setTimeout(r, ms))] *)
Definition sleep (ms : Qc) (w : World) : World :=
  {| store := store w; trace := trace w ++ [Sleep ms]; draws := draws w |}.

Definition Math_random (w : World) : Qc * World :=
  (rnd (draws w),
   {| store := store w; trace := trace w; draws := S (draws w) |}).

Definition _exponentialBackoffWithJitter
    (cap base : Qc) (attempt : nat) (multiplier : Qc) (w : World)
    : Qc * World :=
  let '(r, w) := Math_random w in
  (r * Math_min cap (base * multiplier ^ attempt), w).

(** The [for] loop of [retry], entered at its test [i < maxAttempts] with
    the loop variables [i], [timeout] and [error].  [None]: out of fuel. *)
Fixpoint attempts (fuel : nat) (fn : Operation)
    (options : Required_RetryOptions)
    (i : nat) (timeout : Qc) (error : value) (w : World)
    : option (Completion * World) :=
  if decide (Qc_of_nat i < maxAttempts options) then
    match fuel with
    | O => None
    | S fuel =>
        match call fn w with
        | (Returns v, w) => Some (Fulfilled v, w)
        | (Throws err, w) =>
            let w := sleep timeout w in
            let '(timeout, w) :=
              _exponentialBackoffWithJitter
                (maxTimeout options) (minTimeout options) i
                (multiplier options) w in
            attempts fuel fn options (S i) timeout err w
        end
    end
  else Some (Rejected (RetryError error (maxAttempts options)), w).

(** The argument [opts] is [undefined] or a reference to an object of the
    caller; a reference is read where the literal spreads it. *)
Definition deref (opts : option positive) (w : World) : option RetryOptions :=
  l ← opts; heap (store w) !! l.

Definition retry (fn : Operation) (opts : option positive) (w : World)
    : option (Completion * World) :=
  let options := spread defaultRetryOptions (deref opts w) in
  match assert (bool_decide (0 ≤ maxTimeout options))
               "maxTimeout is less than 0" with
  | Some e => Some (Rejected e, w)
  | None =>
      match assert (bool_decide (minTimeout options ≤ maxTimeout options))
                   "minTimeout is greater than maxTimeout" with
      | Some e => Some (Rejected e, w)
      | None =>
          let timeout := minTimeout options in
          let error := VUndefined in
          attempts (attempt_budget (maxAttempts options)) fn options
                   0 timeout error w
      end
  end.

(** The store after [j] invocations of [fn], and what the invocation
    number [j] (counted from 0) does. *)
Fixpoint store_after (fn : Operation) (j : nat) (s : Store) : Store :=
  match j with
  | O => s
  | S j => store_after fn j (fn s).2
  end.

Definition outcome_at (fn : Operation) (s : Store) (j : nat) : Outcome :=
  (fn (store_after fn j s)).1.

(** The options [retry] works with, and the world its loop continues in
    once an attempt has thrown and left the store [s]. *)
Definition options_of (opts : option positive) (w : World)
    : Required_RetryOptions :=
  spread defaultRetryOptions (deref opts w).

Definition after_throw (s : Store) (timeout : Qc) (w : World) : World :=
  {| store := s;
     trace := trace w ++ [Invoke; Sleep timeout];
     draws := S (draws w) |}.

End Retry.

(** The configurations the specification calls valid. *)
Definition is_integer (n : Qc) : Prop := Qc_of_Z (Qfloor n) = n.

Record valid_config (o : Required_RetryOptions) : Prop := {
  valid_multiplier : 0 < multiplier o;
  valid_minTimeout : 0 ≤ minTimeout o;
  valid_timeouts : minTimeout o ≤ maxTimeout o;
  valid_maxAttempts_int : is_integer (maxAttempts o);
  valid_maxAttempts : 1 ≤ maxAttempts o;
}.

Arguments Store : clear implicits.
Arguments World : clear implicits.
Arguments Operation : clear implicits.

(** ** The schedule of a run *)

(** What the loop does while attempts throw, without the operation: entered
    with [d] draws made, the index [i] and the timeout [t], each of [k]
    failed attempts is an invocation followed by the delay of the current
    timeout, and the next timeout is the jittered backoff of the index. *)
Fixpoint failed_attempts (rnd : nat → Qc) (options : Required_RetryOptions)
    (d i : nat) (t : Qc) (k : nat) : list Event :=
  match k with
  | O => []
  | S k =>
      Invoke :: Sleep t ::
      failed_attempts rnd options (S d) (S i)
        (rnd d * Math_min (maxTimeout options)
                   (minTimeout options * multiplier options ^ i)) k
  end.

(** The delay that follows failed attempt number [j] of a call entered with
    [d] draws made: [minTimeout] after the first failure, then the backoff
    computed at the failure before. *)
Definition retry_delay (rnd : nat → Qc) (options : Required_RetryOptions)
    (d j : nat) : Qc :=
  match j with
  | O => minTimeout options
  | S j' =>
      rnd (d + j')%nat *
      Math_min (maxTimeout options)
               (minTimeout options * multiplier options ^ j')
  end.

(** The events of [k] failed attempts of a call: invocations and delays
    in turn. *)
Definition retry_schedule (rnd : nat → Qc) (options : Required_RetryOptions)
    (d k : nat) : list Event :=
  flat_map (λ j, [Invoke; Sleep (retry_delay rnd options d j)]) (seq 0 k).

(** The operation [fn] made to replace the heap of option objects by
    [g] of the store it leaves, at every invocation; and operations whose
    outcome and private state do not depend on the heap. *)
Definition with_heap {St} (fn : Operation St)
    (g : Store St → gmap positive RetryOptions) : Operation St :=
  λ s, let '(o, s') := fn s in (o, {| priv := priv s'; heap := g s' |}).

Definition heap_blind {St} (fn : Operation St) : Prop :=
  ∀ s1 s2, priv s1 = priv s2 →
    (fn s1).1 = (fn s2).1 ∧ priv (fn s1).2 = priv (fn s2).2.

(** ** Runs on concrete inputs *)

Module Examples.

Definition half : Qc := Q2Qc (1 # 2).
Definition coin (_ : nat) : Qc := half.

(** An operation that always throws, and one that fails twice and then
    succeeds (its private state counts the calls). *)
Definition always_fails : Operation unit :=
  λ s, (Throws (VStr "boom"), s).

Definition fails_twice : Operation nat :=
  λ s,
    let s' := {| priv := S (priv s); heap := heap s |} in
    if decide (priv s < 2)%nat
    then (Throws (VNum (Qc_of_nat (priv s))), s')
    else (Returns (VStr "ok"), s').

Definition one_attempt : RetryOptions :=
  {| multiplier := None; maxTimeout := None;
     maxAttempts := Some (Qc_of_Z 1); minTimeout := None |}.



(** Option objects of a caller: timeouts in the wrong order, no attempt
    at all, and equal timeouts. *)
Definition inverted_timeouts : RetryOptions :=
  {| multiplier := None; maxTimeout := Some (Qc_of_Z 50);
     maxAttempts := None; minTimeout := Some (Qc_of_Z 100) |}.

Definition no_attempts : RetryOptions :=
  {| multiplier := None; maxTimeout := None;
     maxAttempts := Some (Qc_of_Z 0); minTimeout := None |}.


Definition fractional_attempts : RetryOptions :=
  {| multiplier := None; maxTimeout := None;
     maxAttempts := Some (Q2Qc (5 # 2)); minTimeout := None |}.

Definition negative_maxTimeout : RetryOptions :=
  {| multiplier := None; maxTimeout := Some (Qc_of_Z (-1));
     maxAttempts := None; minTimeout := Some (Qc_of_Z 100) |}.


(** An operation that overwrites the caller's option object at address
    [1] with [no_attempts] and then throws. *)
Definition rewrites_options : Operation unit :=
  λ s, (Throws VUndefined,
        {| priv := priv s; heap := <[1%positive := no_attempts]> (heap s) |}).

Definition w0 {St} (s : St) (h : gmap positive RetryOptions) : World St :=
  {| store := {| priv := s; heap := h |}; trace := []; draws := 0 |}.

End Examples.

(** ** The loop test and the fuel *)

Lemma Qc_of_nat_lt_budget (i : nat) (n : Qc) :
  Qc_of_nat i < n ↔ (i < attempt_budget n)%nat.
Proof.
  unfold Qc_of_nat, attempt_budget, Qclt; simpl.
  split; intros H.
  - assert (H' : (inject_Z (Z.of_nat i) < inject_Z (Qceiling n))%Q).
    { eapply Qlt_le_trans; [exact H | apply Qle_ceiling]. }
    rewrite <- Zlt_Qlt in H'. lia.
  - eapply Qle_lt_trans; [| apply Qceiling_lt].
    rewrite <- Zle_Qle. lia.
Qed.

Lemma attempt_budget_of_nat (n : nat) : attempt_budget (Qc_of_nat n) = n.
Proof.
  unfold attempt_budget, Qc_of_nat; simpl.
  rewrite Qceiling_Z. lia.
Qed.

Lemma Qc_of_nat_le (a b : nat) : (a ≤ b)%nat → Qc_of_nat a ≤ Qc_of_nat b.
Proof. intros H. unfold Qc_of_nat. rewrite <- Z2Qc_inj_le. lia. Qed.

Lemma Qc_of_nat_lt (a b : nat) : (a < b)%nat ↔ Qc_of_nat a < Qc_of_nat b.
Proof. unfold Qc_of_nat. rewrite <- Z2Qc_inj_lt. lia. Qed.

(** ** Traces *)

Lemma invocations_app (t u : list Event) :
  invocations (t ++ u) = (invocations t + invocations u)%nat.
Proof. induction t as [|[|ms] t IH]; cbn; lia. Qed.

Lemma sleeps_app (t u : list Event) : sleeps (t ++ u) = sleeps t ++ sleeps u.
Proof. induction t as [|[|ms] t IH]; cbn; congruence. Qed.

(** ** One turn of the loop *)

Section Loop.

Context {St : Type}.
Variable rnd : nat → Qc.
Variable fn : Operation St.
Variable options : Required_RetryOptions.

Implicit Types (w : World St) (s : Store St) (i k fuel : nat).
Implicit Types (timeout : Qc) (error err v : value).

Lemma attempts_unfold fuel i timeout error w :
  attempts rnd fuel fn options i timeout error w =
  if decide (Qc_of_nat i < maxAttempts options) then
    match fuel with
    | O => None
    | S fuel =>
        match call fn w with
        | (Returns v, w) => Some (Fulfilled v, w)
        | (Throws err, w) =>
            let w := sleep timeout w in
            let '(timeout, w) :=
              _exponentialBackoffWithJitter rnd
                (maxTimeout options) (minTimeout options) i
                (multiplier options) w in
            attempts rnd fuel fn options (S i) timeout err w
        end
    end
  else Some (Rejected (RetryError error (maxAttempts options)), w).
Proof. destruct fuel; reflexivity. Qed.

Lemma attempts_exit fuel i timeout error w :
  ¬ Qc_of_nat i < maxAttempts options →
  attempts rnd fuel fn options i timeout error w =
  Some (Rejected (RetryError error (maxAttempts options)), w).
Proof. intros H. rewrite attempts_unfold. by rewrite decide_False. Qed.

Lemma attempts_return fuel i timeout error w v s :
  Qc_of_nat i < maxAttempts options →
  fn (store w) = (Returns v, s) →
  attempts rnd (S fuel) fn options i timeout error w =
  Some (Fulfilled v,
        {| store := s; trace := trace w ++ [Invoke]; draws := draws w |}).
Proof.
  intros Hi Hfn. rewrite attempts_unfold, decide_True by done.
  unfold call. by rewrite Hfn.
Qed.

Lemma attempts_throw fuel i timeout error w err s :
  Qc_of_nat i < maxAttempts options →
  fn (store w) = (Throws err, s) →
  attempts rnd (S fuel) fn options i timeout error w =
  attempts rnd fuel fn options (S i)
    (rnd (draws w) *
     Math_min (maxTimeout options)
              (minTimeout options * multiplier options ^ i))
    err (after_throw s timeout w).
Proof.
  intros Hi Hfn. rewrite attempts_unfold, decide_True by done.
  unfold call. rewrite Hfn. cbn.
  unfold after_throw. by rewrite <- app_assoc.
Qed.

Lemma invocations_after_throw s timeout w :
  invocations (trace (after_throw s timeout w)) = S (invocations (trace w)).
Proof.
  unfold after_throw; cbn [trace].
  rewrite invocations_app. cbn. lia.
Qed.

Lemma sleeps_after_throw s timeout w :
  sleeps (trace (after_throw s timeout w)) = sleeps (trace w) ++ [timeout].
Proof. unfold after_throw; cbn [trace]. by rewrite sleeps_app. Qed.

Lemma outcome_at_0 s : outcome_at fn s 0 = (fn s).1.
Proof. reflexivity. Qed.

Lemma outcome_at_S s j : outcome_at fn s (S j) = outcome_at fn (fn s).2 j.
Proof. reflexivity. Qed.

(** ** Whole runs of the loop *)

(** The loop always completes when its fuel covers the attempts left: it
    invokes [fn] some [n] times, no other change is made to the store,
    and it never ends in a precondition error. *)
Lemma attempts_run fuel : ∀ i timeout error w,
  (attempt_budget (maxAttempts options) ≤ i + fuel)%nat →
  ∃ c w' n,
    attempts rnd fuel fn options i timeout error w = Some (c, w') ∧
    invocations (trace w') = (invocations (trace w) + n)%nat ∧
    (n ≤ attempt_budget (maxAttempts options) - i)%nat ∧
    (Qc_of_nat i < maxAttempts options → (1 ≤ n)%nat) ∧
    store w' = store_after fn n (store w) ∧
    (∀ msg, c ≠ Rejected (PreconditionError msg)).
Proof.
  induction fuel as [|fuel IH]; intros i timeout error w Hfuel.
  - assert (Hi : ¬ Qc_of_nat i < maxAttempts options).
    { rewrite Qc_of_nat_lt_budget. lia. }
    rewrite attempts_exit by done.
    exists (Rejected (RetryError error (maxAttempts options))), w, 0%nat.
    split_and!; [done | lia | lia | done | done | done].
  - destruct (decide (Qc_of_nat i < maxAttempts options)) as [Hi|Hi].
    + pose proof (proj1 (Qc_of_nat_lt_budget _ _) Hi) as Hlt.
      destruct (fn (store w)) as [[v|err] s] eqn:Hfn.
      * erewrite attempts_return by done.
        eexists _, _, 1%nat. split_and!; [done | | lia | done | | done].
        -- cbn. by rewrite invocations_app.
        -- cbn. by rewrite Hfn.
      * erewrite attempts_throw by done.
        edestruct (IH (S i)) as (c & w' & n & -> & Hinv & Hn & _ & Hst & Hc);
          [lia|].
        exists c, w', (S n). split_and!; [done | | lia | lia | | done].
        -- rewrite Hinv, invocations_after_throw. lia.
        -- rewrite Hst. cbn. by rewrite Hfn.
    + rewrite attempts_exit by done.
      exists (Rejected (RetryError error (maxAttempts options))), w, 0%nat.
      split_and!; [done | lia | lia | done | done | done].
Qed.

(** [k] failures, then a success at attempt [i + k]. *)
Lemma attempts_success k : ∀ fuel i timeout error w v,
  (∀ j, (j < k)%nat → ∃ err, outcome_at fn (store w) j = Throws err) →
  outcome_at fn (store w) k = Returns v →
  Qc_of_nat (i + k) < maxAttempts options →
  (k < fuel)%nat →
  ∃ w',
    attempts rnd fuel fn options i timeout error w =
      Some (Fulfilled v, w') ∧
    invocations (trace w') = (invocations (trace w) + S k)%nat ∧
    length (sleeps (trace w')) = (length (sleeps (trace w)) + k)%nat ∧
    store w' = store_after fn (S k) (store w).
Proof.
  induction k as [|k IH]; intros fuel i timeout error w v Hfail Hok Hk Hfuel;
    (destruct fuel as [|fuel]; [lia|]).
  - rewrite outcome_at_0 in Hok.
    destruct (fn (store w)) as [o s] eqn:Hfn; cbn in Hok; subst o.
    rewrite Nat.add_0_r in Hk.
    erewrite attempts_return by done.
    eexists. split; [done|]. cbn. rewrite invocations_app, sleeps_app, Hfn.
    cbn. rewrite app_nil_r. repeat split; lia.
  - destruct (Hfail 0%nat) as [err Herr]; [lia|].
    rewrite outcome_at_0 in Herr.
    destruct (fn (store w)) as [o s] eqn:Hfn; cbn in Herr; subst o.
    assert (Hi : Qc_of_nat i < maxAttempts options).
    { eapply Qcle_lt_trans; [|exact Hk]. apply Qc_of_nat_le. lia. }
    erewrite attempts_throw by done.
    edestruct (IH fuel (S i)) as (w' & -> & Hinv & Hsl & Hst).
    + intros j Hj. cbn [after_throw store].
      destruct (Hfail (S j)) as [e He]; [lia|].
      rewrite outcome_at_S, Hfn in He. eauto.
    + cbn [after_throw store].
      rewrite outcome_at_S, Hfn in Hok. exact Hok.
    + by replace (S i + k)%nat with (i + S k)%nat by lia.
    + lia.
    + exists w'. split; [done|].
      rewrite Hinv, Hsl, Hst, invocations_after_throw, sleeps_after_throw.
      rewrite length_app. cbn. rewrite Hfn. repeat split; lia.
Qed.

(** Every attempt from [i] to the last one, [i + k], throws. *)
Lemma attempts_exhausted k : ∀ fuel i timeout error w c,
  (∀ j, (j ≤ k)%nat → ∃ err, outcome_at fn (store w) j = Throws err) →
  outcome_at fn (store w) k = Throws c →
  maxAttempts options = Qc_of_nat (i + S k) →
  (k < fuel)%nat →
  ∃ w',
    attempts rnd fuel fn options i timeout error w =
      Some (Rejected (RetryError c (maxAttempts options)), w') ∧
    invocations (trace w') = (invocations (trace w) + S k)%nat ∧
    length (sleeps (trace w')) = (length (sleeps (trace w)) + S k)%nat ∧
    store w' = store_after fn (S k) (store w).
Proof.
  induction k as [|k IH]; intros fuel i timeout error w c Hfail Hc Hmax Hfuel;
    (destruct fuel as [|fuel]; [lia|]);
    (assert (Hi : Qc_of_nat i < maxAttempts options)
      by (rewrite Hmax; apply Qc_of_nat_lt; lia)).
  - rewrite outcome_at_0 in Hc.
    destruct (fn (store w)) as [o s] eqn:Hfn; cbn in Hc; subst o.
    erewrite attempts_throw by done.
    rewrite attempts_exit.
    + eexists. split; [done|].
      rewrite invocations_after_throw, sleeps_after_throw, length_app.
      cbn. rewrite Hfn. repeat split; lia.
    + rewrite Hmax. rewrite <- Qc_of_nat_lt. lia.
  - destruct (Hfail 0%nat) as [err Herr]; [lia|].
    rewrite outcome_at_0 in Herr.
    destruct (fn (store w)) as [o s] eqn:Hfn; cbn in Herr; subst o.
    erewrite attempts_throw by done.
    edestruct (IH fuel (S i)) as (w' & -> & Hinv & Hsl & Hst).
    + intros j Hj. cbn [after_throw store].
      destruct (Hfail (S j)) as [e He]; [lia|].
      rewrite outcome_at_S, Hfn in He. eauto.
    + cbn [after_throw store].
      rewrite outcome_at_S, Hfn in Hc. exact Hc.
    + rewrite Hmax. f_equal. lia.
    + lia.
    + exists w'. split; [done|].
      rewrite Hinv, Hsl, Hst, invocations_after_throw, sleeps_after_throw.
      rewrite length_app. cbn. rewrite Hfn. repeat split; lia.
Qed.

(** The loop only ever adds to the trace. *)
Lemma attempts_extends_trace fuel : ∀ i timeout error w c w',
  attempts rnd fuel fn options i timeout error w = Some (c, w') →
  ∃ u, trace w' = trace w ++ u.
Proof.
  induction fuel as [|fuel IH]; intros i timeout error w c w' H;
    rewrite attempts_unfold in H; case_decide; simplify_eq.
  - exists []. by rewrite app_nil_r.
  - unfold call in H. destruct (fn (store w)) as [[v|err] s]; cbn in H.
    + simplify_eq. by eexists.
    + apply IH in H as [u ->]. cbn. rewrite <- !app_assoc. by eexists.
  - exists []. by rewrite app_nil_r.
Qed.

End Loop.

(** ** Arithmetic of the backoff *)






Lemma Math_min_left (a b : Qc) : a ≤ b → Math_min a b = a.
Proof. intros H. unfold Math_min. by rewrite decide_True. Qed.


Section Backoff.

Context {St : Type}.
Variable rnd : nat → Qc.

Implicit Types (w : World St) (cap base mult : Qc) (i : nat).

Lemma backoff_value cap base i mult w :
  (_exponentialBackoffWithJitter rnd cap base i mult w).1 =
  rnd (draws w) * Math_min cap (base * mult ^ i).
Proof. reflexivity. Qed.




End Backoff.

(** ** The checks before the loop *)

Section Checks.

Context {St : Type}.
Variable rnd : nat → Qc.
Variable fn : Operation St.

Implicit Types (w : World St) (opts : option positive).

Lemma retry_checked opts w :
  0 ≤ maxTimeout (options_of opts w) →
  minTimeout (options_of opts w) ≤ maxTimeout (options_of opts w) →
  retry rnd fn opts w =
  attempts rnd (attempt_budget (maxAttempts (options_of opts w))) fn
    (options_of opts w) 0 (minTimeout (options_of opts w)) VUndefined w.
Proof.
  intros H1 H2. unfold retry, assert. fold (options_of opts w).
  by rewrite !bool_decide_eq_true_2.
Qed.

Lemma retry_rejected_early opts w :
  maxTimeout (options_of opts w) < 0 ∨
  maxTimeout (options_of opts w) < minTimeout (options_of opts w) →
  ∃ msg, retry rnd fn opts w = Some (Rejected (PreconditionError msg), w).
Proof.
  intros H. unfold retry, assert. fold (options_of opts w).
  destruct (decide (0 ≤ maxTimeout (options_of opts w))) as [H1|H1].
  - rewrite (bool_decide_eq_true_2 _ H1).
    destruct H as [H|H]; [by apply Qclt_nge in H|].
    rewrite bool_decide_eq_false_2 by (by apply Qclt_nge). eauto.
  - rewrite (bool_decide_eq_false_2 _ H1). eauto.
Qed.

(** [retry] always completes; what it did to the world is [n] invocations
    of [fn] and nothing else to the store. *)
Lemma retry_run opts w :
  ∃ c w' n,
    retry rnd fn opts w = Some (c, w') ∧
    invocations (trace w') = (invocations (trace w) + n)%nat ∧
    (n ≤ attempt_budget (maxAttempts (options_of opts w)))%nat ∧
    store w' = store_after fn n (store w).
Proof.
  destruct (decide (0 ≤ maxTimeout (options_of opts w))) as [H1|H1];
    [destruct (decide (minTimeout (options_of opts w)
                       ≤ maxTimeout (options_of opts w))) as [H2|H2]|].
  - rewrite retry_checked by done.
    edestruct (attempts_run rnd fn (options_of opts w))
      as (c & w' & n & -> & Hinv & Hn & _ & Hst & _); [cbn; reflexivity|].
    exists c, w', n. split_and!; [done | done | lia | done].
  - destruct (retry_rejected_early opts w) as [msg ->].
    { right. by apply Qclt_nge. }
    eexists _, w, 0%nat. split_and!; [done | lia | lia | done].
  - destruct (retry_rejected_early opts w) as [msg ->].
    { left. by apply Qclt_nge. }
    eexists _, w, 0%nat. split_and!; [done | lia | lia | done].
Qed.

(** The delays of the two kinds of run: [k] failures and a success are
    followed by [k] delays; [n] failures out of [n] attempts by [n], the
    last of them after the last attempt. *)
Lemma retry_success_sleeps opts w k v :
  0 ≤ maxTimeout (options_of opts w) →
  minTimeout (options_of opts w) ≤ maxTimeout (options_of opts w) →
  (∀ j, (j < k)%nat → ∃ err, outcome_at fn (store w) j = Throws err) →
  outcome_at fn (store w) k = Returns v →
  Qc_of_nat k < maxAttempts (options_of opts w) →
  ∃ w',
    retry rnd fn opts w = Some (Fulfilled v, w') ∧
    length (sleeps (trace w')) = (length (sleeps (trace w)) + k)%nat.
Proof.
  intros H1 H2 Hfail Hok Hk.
  rewrite retry_checked by done.
  edestruct (attempts_success rnd fn (options_of opts w) k)
    as (w' & -> & _ & Hsl & _); [done | done | done | | by eauto].
  by apply Qc_of_nat_lt_budget.
Qed.

Lemma retry_exhausted_sleeps opts w n :
  0 ≤ maxTimeout (options_of opts w) →
  minTimeout (options_of opts w) ≤ maxTimeout (options_of opts w) →
  (1 ≤ n)%nat →
  maxAttempts (options_of opts w) = Qc_of_nat n →
  (∀ j, (j < n)%nat → ∃ err, outcome_at fn (store w) j = Throws err) →
  ∃ c w',
    retry rnd fn opts w =
      Some (Rejected (RetryError c (maxAttempts (options_of opts w))), w') ∧
    length (sleeps (trace w')) = (length (sleeps (trace w)) + n)%nat.
Proof.
  intros H1 H2 Hn Hmax Hfail.
  destruct (Hfail (n - 1)%nat) as [c Hc]; [lia|].
  rewrite retry_checked by done.
  edestruct (attempts_exhausted rnd fn (options_of opts w) (n - 1))
    as (w' & -> & _ & Hsl & _); [ | done | | | ].
  - intros j Hj. apply Hfail. lia.
  - rewrite Hmax. f_equal. lia.
  - rewrite Hmax, attempt_budget_of_nat. lia.
  - exists c, w'. split; [done|]. rewrite Hsl. lia.
Qed.

(** The first attempt is not preceded by a delay. *)
Lemma retry_first_attempt_immediate opts w c w' :
  0 ≤ maxTimeout (options_of opts w) →
  minTimeout (options_of opts w) ≤ maxTimeout (options_of opts w) →
  0 < maxAttempts (options_of opts w) →
  retry rnd fn opts w = Some (c, w') →
  ∃ u, trace w' = trace w ++ Invoke :: u.
Proof.
  intros H1 H2 Hpos. rewrite retry_checked by done.
  assert (Hi : Qc_of_nat 0 < maxAttempts (options_of opts w)).
  { change (Qc_of_nat 0) with (Qc_of_Z 0). by rewrite Z2Qc_inj_0. }
  destruct (attempt_budget _) as [|fuel] eqn:Hb.
  { apply Qc_of_nat_lt_budget in Hi. lia. }
  destruct (fn (store w)) as [[v|err] s] eqn:Hfn.
  - erewrite attempts_return by done. intros; simplify_eq. cbn. by eexists.
  - erewrite attempts_throw by done. intros H.
    apply attempts_extends_trace in H as [u ->].
    cbn. rewrite <- app_assoc. by eexists.
Qed.

(** What [fn] never writes is the same after any number of invocations. *)
Lemma store_after_frame (l : positive) :
  (∀ s, heap (fn s).2 !! l = heap s !! l) →
  ∀ n s, heap (store_after fn n s) !! l = heap s !! l.
Proof.
  intros Hfn n. induction n as [|n IH]; intros s; cbn; [done|].
  rewrite IH. apply Hfn.
Qed.

End Checks.

(** ** Properties of [retry] *)

Section Properties.

Context {St : Type}.
Variable rnd : nat → Qc.
Variable fn : Operation St.

Implicit Types (w : World St) (opts : option positive).

(** C1.  When the options pass the two checks, the first [k] invocations
    of the operation throw and invocation [k] (counted from 0, with
    [k < maxAttempts]) returns [v], [retry] is fulfilled with exactly [v]
    and has invoked the operation [k + 1] times. *)
Theorem retry_returns_first_success opts w k v :
  0 ≤ maxTimeout (options_of opts w) →
  minTimeout (options_of opts w) ≤ maxTimeout (options_of opts w) →
  (∀ j, (j < k)%nat → ∃ err, outcome_at fn (store w) j = Throws err) →
  outcome_at fn (store w) k = Returns v →
  Qc_of_nat k < maxAttempts (options_of opts w) →
  ∃ w',
    retry rnd fn opts w = Some (Fulfilled v, w') ∧
    invocations (trace w') = (invocations (trace w) + (k + 1))%nat.
Proof.
  intros H1 H2 Hfail Hok Hk.
  rewrite retry_checked by done.
  edestruct (attempts_success rnd fn (options_of opts w) k)
    as (w' & -> & Hinv & _); [done | done | done | |].
  - by apply Qc_of_nat_lt_budget.
  - exists w'. split; [done|]. rewrite Hinv. lia.
Qed.


(** C3.  When [maxTimeout < 0] or [minTimeout > maxTimeout], [retry] is
    rejected with a precondition error, which is not a [RetryError], and
    the world is the one it was called in: the operation was not invoked. *)
Theorem retry_rejects_bad_timeouts opts w :
  maxTimeout (options_of opts w) < 0 ∨
  minTimeout (options_of opts w) > maxTimeout (options_of opts w) →
  ∃ msg,
    retry rnd fn opts w = Some (Rejected (PreconditionError msg), w) ∧
    (∀ cause count, PreconditionError msg ≠ RetryError cause count).
Proof.
  intros H. destruct (retry_rejected_early rnd fn opts w H) as [msg Hmsg].
  exists msg. split; [exact Hmsg | discriminate].
Qed.


(** C9.  [maxAttempts] is not checked: when the timeouts pass the two
    checks and [maxAttempts ≤ 0], [retry] is rejected with a [RetryError]
    whose cause is [undefined] and whose count is the given [maxAttempts],
    in the world it was called in: the operation was not invoked. *)
Theorem retry_nonpositive_maxAttempts opts w :
  0 ≤ maxTimeout (options_of opts w) →
  minTimeout (options_of opts w) ≤ maxTimeout (options_of opts w) →
  maxAttempts (options_of opts w) ≤ 0 →
  retry rnd fn opts w =
  Some (Rejected (RetryError VUndefined (maxAttempts (options_of opts w))), w).
Proof.
  intros H1 H2 Hmax.
  rewrite retry_checked by done.
  apply attempts_exit.
  apply Qcle_ngt. apply Qcle_trans with 0; [done|].
  rewrite <- Z2Qc_inj_0. apply (Qc_of_nat_le 0). lia.
Qed.

(** C10.  [retry] writes nothing to the store: it completes in the store
    that [n] invocations of the operation leave, [n] being the number of
    invocations it made.  So an option object of the caller that the
    operation leaves alone is, field for field, the same after the call. *)
Theorem retry_does_not_write_options opts w :
  ∃ c w' n,
    retry rnd fn opts w = Some (c, w') ∧
    invocations (trace w') = (invocations (trace w) + n)%nat ∧
    store w' = store_after fn n (store w) ∧
    (∀ l : positive,
       (∀ s, heap (fn s).2 !! l = heap s !! l) →
       heap (store w') !! l = heap (store w) !! l).
Proof.
  destruct (retry_run rnd fn opts w) as (c & w' & n & Hr & Hinv & _ & Hst).
  exists c, w', n. split_and!; [done | done | done |].
  intros l Hfn. rewrite Hst. by apply store_after_frame.
Qed.




End Properties.

(** ** The properties at concrete runs *)

Import Examples.

Lemma coin_range : ∀ n, 0 ≤ coin n ∧ coin n < 1.
Proof. intros n. split; compute_done. Qed.

Lemma valid_defaults : valid_config defaultRetryOptions.
Proof. split; compute_done. Qed.

Lemma retry_returns_first_success_witness :
  ∃ w',
    retry coin fails_twice None (w0 0%nat ∅) = Some (Fulfilled (VStr "ok"), w') ∧
    invocations (trace w') = (invocations (trace (w0 0%nat ∅)) + (2 + 1))%nat.
Proof.
  apply (retry_returns_first_success coin fails_twice None (w0 0%nat ∅) 2).
  - compute_done.
  - compute_done.
  - intros [|[|j]] Hj; [by eexists | by eexists | lia].
  - reflexivity.
  - compute_done.
Defined.


Lemma retry_rejects_bad_timeouts_witness :
  ∃ msg,
    retry coin always_fails (Some 1%positive)
      (w0 () {[1%positive := inverted_timeouts]}) =
      Some (Rejected (PreconditionError msg),
            w0 () {[1%positive := inverted_timeouts]}) ∧
    (∀ cause count, PreconditionError msg ≠ RetryError cause count).
Proof.
  apply (retry_rejects_bad_timeouts coin always_fails (Some 1%positive)
           (w0 () {[1%positive := inverted_timeouts]})).
  right. compute_done.
Defined.


Lemma retry_nonpositive_maxAttempts_witness :
  retry coin always_fails (Some 1%positive)
    (w0 () {[1%positive := no_attempts]}) =
  Some (Rejected
          (RetryError VUndefined
             (maxAttempts
                (options_of (Some 1%positive)
                   (w0 () {[1%positive := no_attempts]})))),
        w0 () {[1%positive := no_attempts]}).
Proof.
  apply (retry_nonpositive_maxAttempts coin always_fails (Some 1%positive)
           (w0 () {[1%positive := no_attempts]})); compute_done.
Defined.






(** C4 at the input where the code departs from it.  With
    [maxAttempts = 1] and an operation that throws, [retry] invokes the
    operation once, then waits [minTimeout] (1000 ms, the default) before
    it is rejected with the [RetryError]: one delay, after the only
    attempt, where the specification has none. *)
Theorem retry_single_attempt_still_sleeps :
  ∃ w',
    retry coin always_fails (Some 1%positive)
      (w0 () {[1%positive := one_attempt]}) =
      Some (Rejected (RetryError (VStr "boom") (Qc_of_Z 1)), w') ∧
    trace w' = [Invoke; Sleep (Qc_of_Z 1000)] ∧
    sleeps (trace w') = [Qc_of_Z 1000].
Proof. eexists. split_and!; reflexivity. Qed.

(** The loop runs on the copy made when [retry] is entered.  An operation
    that rewrites the object it was called with (here to [maxAttempts = 0])
    still gets the five attempts of the copy, and the object is afterwards
    what the operation made of it. *)
Lemma retry_runs_on_its_copy :
  ∃ w',
    retry coin rewrites_options (Some 1%positive)
      (w0 () {[1%positive := explicit_defaults]}) =
      Some (Rejected (RetryError VUndefined (Qc_of_Z 5)), w') ∧
    invocations (trace w') = 5%nat ∧
    heap (store w') !! 1%positive = Some no_attempts.
Proof. eexists. split_and!; reflexivity. Qed.

(** ** The complete description of a run of the loop *)

Section Schedule.

Context {St : Type}.
Variable rnd : nat → Qc.
Variable fn : Operation St.
Variable options : Required_RetryOptions.

Implicit Types (w : World St) (i k n fuel : nat) (timeout : Qc).

(** However the loop is entered, it ends in one of two ways.  It is
    fulfilled at the first invocation that returns, all earlier ones having
    thrown; or every invocation up to the budget throws and it is rejected
    with the last cause (the entry value of [error] if there was no
    invocation).  In both cases the trace grows by the schedule of the
    failed attempts. *)
Lemma attempts_spec fuel : ∀ i timeout error w,
  (attempt_budget (maxAttempts options) ≤ i + fuel)%nat →
  ∃ c w' n,
    attempts rnd fuel fn options i timeout error w = Some (c, w') ∧
    ((∃ v k,
        c = Fulfilled v ∧ n = S k ∧
        (i + k < attempt_budget (maxAttempts options))%nat ∧
        outcome_at fn (store w) k = Returns v ∧
        (∀ j, (j < k)%nat → ∃ err, outcome_at fn (store w) j = Throws err) ∧
        trace w' =
          trace w ++
          failed_attempts rnd options (draws w) i timeout k ++ [Invoke] ∧
        draws w' = (draws w + k)%nat)
     ∨
     (∃ c0,
        c = Rejected (RetryError c0 (maxAttempts options)) ∧
        (i + n = i `max` attempt_budget (maxAttempts options))%nat ∧
        (∀ j, (j < n)%nat → ∃ err, outcome_at fn (store w) j = Throws err) ∧
        ((n = 0%nat ∧ c0 = error) ∨
         (∃ k, n = S k ∧ outcome_at fn (store w) k = Throws c0)) ∧
        trace w' =
          trace w ++ failed_attempts rnd options (draws w) i timeout n ∧
        draws w' = (draws w + n)%nat)).
Proof.
  induction fuel as [|fuel IH]; intros i timeout error w Hfuel.
  - assert (Hi : ¬ Qc_of_nat i < maxAttempts options).
    { rewrite Qc_of_nat_lt_budget. lia. }
    rewrite attempts_exit by done.
    eexists _, w, 0%nat. split; [done|]. right. eexists.
    split_and!; [done | lia | intros; lia | by left | | lia].
    cbn. by rewrite app_nil_r.
  - destruct (decide (Qc_of_nat i < maxAttempts options)) as [Hi|Hi].
    + pose proof (proj1 (Qc_of_nat_lt_budget _ _) Hi) as Hlt.
      destruct (fn (store w)) as [[v|err] s] eqn:Hfn.
      * erewrite attempts_return by done.
        eexists _, _, 1%nat. split; [done|]. left. exists v, 0%nat.
        split_and!; [done | done | lia | | intros; lia | done | cbn; lia].
        by rewrite outcome_at_0, Hfn.
      * erewrite attempts_throw by done.
        edestruct (IH (S i)) as (c & w' & n & -> & Hcase); [lia|].
        exists c, w', (S n). split; [done|].
        assert (Hshift : ∀ j, outcome_at fn (store w) (S j) =
                  outcome_at fn (store (after_throw s timeout w)) j).
        { intros j. by rewrite outcome_at_S, Hfn. }
        assert (H0 : outcome_at fn (store w) 0 = Throws err).
        { by rewrite outcome_at_0, Hfn. }
        destruct Hcase as [(v & k & -> & -> & Hk & Hok & Hfail & Htr & Hdr)
                          |(c0 & -> & Hn & Hfail & Hlast & Htr & Hdr)].
        -- left. exists v, (S k).
           split_and!; [done | done | lia | by rewrite Hshift | | |].
           ++ intros [|j] Hj; [eauto|]. rewrite Hshift. apply Hfail. lia.
           ++ rewrite Htr. cbn. by rewrite <- app_assoc.
           ++ rewrite Hdr. cbn. lia.
        -- right. exists c0. split_and!; [done | lia | | | |].
           ++ intros [|j] Hj; [eauto|]. rewrite Hshift. apply Hfail. lia.
           ++ right. destruct Hlast as [[-> ->]|(k & -> & Hk)].
              ** by exists 0%nat.
              ** exists (S k). by rewrite Hshift.
           ++ rewrite Htr. cbn. by rewrite <- app_assoc.
           ++ rewrite Hdr. cbn. lia.
    + rewrite attempts_exit by done.
      assert (Hge : (attempt_budget (maxAttempts options) ≤ i)%nat).
      { apply Nat.nlt_ge. by rewrite <- Qc_of_nat_lt_budget. }
      eexists _, w, 0%nat. split; [done|]. right. eexists.
      split_and!; [done | lia | intros; lia | by left | | lia].
      cbn. by rewrite app_nil_r.
Qed.

(** The schedule in closed form: invocations and delays alternate, and the
    delay after failed attempt [j] is [retry_delay] of [j]. *)
Lemma flat_map_seq_shift {A} (f : nat → list A) (a k : nat) :
  flat_map f (seq (S a) k) = flat_map (λ j, f (S j)) (seq a k).
Proof.
  revert a. induction k as [|k IH]; intros a; cbn; [done|].
  by rewrite IH.
Qed.

Lemma failed_attempts_closed_form k : ∀ d i timeout,
  failed_attempts rnd options d i timeout k =
  flat_map
    (λ j, [Invoke;
           Sleep match j with
                 | O => timeout
                 | S j' =>
                     rnd (d + j')%nat *
                     Math_min (maxTimeout options)
                       (minTimeout options * multiplier options ^ (i + j'))
                 end])
    (seq 0 k).
Proof.
  induction k as [|k IH]; intros d i timeout; [done|].
  cbn [failed_attempts seq flat_map app]. do 2 f_equal.
  rewrite IH, flat_map_seq_shift. apply flat_map_ext. intros [|j].
  - by rewrite !Nat.add_0_r.
  - by rewrite <- !Nat.add_succ_comm.
Qed.

Lemma failed_attempts_retry_delay d k :
  failed_attempts rnd options d 0 (minTimeout options) k =
  flat_map (λ j, [Invoke; Sleep (retry_delay rnd options d j)]) (seq 0 k).
Proof. apply failed_attempts_closed_form. Qed.

Lemma invocations_failed_attempts k : ∀ d i timeout,
  invocations (failed_attempts rnd options d i timeout k) = k.
Proof. induction k as [|k IH]; intros d i timeout; cbn; [done|]. by rewrite IH. Qed.

Lemma sleeps_schedule d k :
  sleeps (flat_map (λ j, [Invoke; Sleep (retry_delay rnd options d j)])
            (seq 0 k)) =
  map (retry_delay rnd options d) (seq 0 k).
Proof.
  generalize 0%nat. induction k as [|k IH]; intros a; cbn; [done|].
  by rewrite IH.
Qed.




End Schedule.

(** ** Complete runs of [retry] *)

Section Runs.

Context {St : Type}.
Variable rnd : nat → Qc.
Variable fn : Operation St.

Implicit Types (w : World St) (opts : option positive).

Lemma retry_spec opts w :
  0 ≤ maxTimeout (options_of opts w) →
  minTimeout (options_of opts w) ≤ maxTimeout (options_of opts w) →
  ∃ c w' n,
    retry rnd fn opts w = Some (c, w') ∧
    ((∃ v k,
        c = Fulfilled v ∧ n = S k ∧
        (k < attempt_budget (maxAttempts (options_of opts w)))%nat ∧
        outcome_at fn (store w) k = Returns v ∧
        (∀ j, (j < k)%nat → ∃ err, outcome_at fn (store w) j = Throws err) ∧
        trace w' =
          trace w ++
          retry_schedule rnd (options_of opts w) (draws w) k ++ [Invoke] ∧
        draws w' = (draws w + k)%nat)
     ∨
     (∃ c0,
        c = Rejected (RetryError c0 (maxAttempts (options_of opts w))) ∧
        n = attempt_budget (maxAttempts (options_of opts w)) ∧
        (∀ j, (j < n)%nat → ∃ err, outcome_at fn (store w) j = Throws err) ∧
        ((n = 0%nat ∧ c0 = VUndefined) ∨
         (∃ k, n = S k ∧ outcome_at fn (store w) k = Throws c0)) ∧
        trace w' =
          trace w ++ retry_schedule rnd (options_of opts w) (draws w) n ∧
        draws w' = (draws w + n)%nat)).
Proof.
  intros H1 H2. rewrite retry_checked by done.
  edestruct (attempts_spec rnd fn (options_of opts w))
    as (c & w' & n & -> & Hcase); [cbn; reflexivity|].
  exists c, w', n. split; [done|]. unfold retry_schedule.
  destruct Hcase as [(v & k & ? & ? & ? & ? & ? & Htr & ?)
                    |(c0 & ? & ? & ? & ? & Htr & ?)];
    rewrite failed_attempts_retry_delay in Htr.
  - left. exists v, k. split_and!; done.
  - right. exists c0. split_and!; done.
Qed.

Lemma invocations_retry_schedule options d k :
  invocations (retry_schedule rnd options d k) = k.
Proof.
  unfold retry_schedule. rewrite <- failed_attempts_retry_delay.
  apply invocations_failed_attempts.
Qed.

Lemma sleeps_retry_schedule options d k :
  sleeps (retry_schedule rnd options d k) =
  map (retry_delay rnd options d) (seq 0 k).
Proof. apply sleeps_schedule. Qed.

(** X1.  The whole trace of a run that succeeds at attempt [k]: each of the [k]
    failed attempts is followed by one delay, [minTimeout] after the first
    and the jittered backoff of the previous index after the others; the
    successful invocation is the last event, and [k] draws were made. *)
Theorem retry_success_trace opts w k v :
  0 ≤ maxTimeout (options_of opts w) →
  minTimeout (options_of opts w) ≤ maxTimeout (options_of opts w) →
  (∀ j, (j < k)%nat → ∃ err, outcome_at fn (store w) j = Throws err) →
  outcome_at fn (store w) k = Returns v →
  Qc_of_nat k < maxAttempts (options_of opts w) →
  ∃ w',
    retry rnd fn opts w = Some (Fulfilled v, w') ∧
    trace w' =
      trace w ++ retry_schedule rnd (options_of opts w) (draws w) k
              ++ [Invoke] ∧
    sleeps (trace w') =
      sleeps (trace w) ++
      map (retry_delay rnd (options_of opts w) (draws w)) (seq 0 k) ∧
    draws w' = (draws w + k)%nat.
Proof.
  intros H1 H2 Hfail Hok Hk.
  apply Qc_of_nat_lt_budget in Hk.
  destruct (retry_spec opts w H1 H2) as (c & w' & n & -> & Hcase).
  destruct Hcase as [(v' & k' & -> & -> & Hk' & Hok' & Hfail' & Htr & Hdr)
                    |(c0 & -> & -> & Hfail' & _)].
  - assert (k' = k) as ->.
    { destruct (Nat.lt_trichotomy k' k) as [Hlt|[->|Hlt]]; [|done|].
      - destruct (Hfail k' Hlt) as [e He]. congruence.
      - destruct (Hfail' k Hlt) as [e He]. congruence. }
    assert (v' = v) as -> by congruence.
    exists w'. split_and!; [done | done | | done].
    rewrite Htr, !sleeps_app, sleeps_retry_schedule. cbn.
    by rewrite app_nil_r.
  - destruct (Hfail' k Hk) as [e He]. congruence.
Qed.

(** X2.  A run in which every attempt throws, for any [maxAttempts], whole or
    not: the operation is invoked once for each natural number below
    [maxAttempts], each invocation is followed by a delay, and the
    rejection carries the last cause ([undefined] when there was no
    attempt) and [maxAttempts] as given. *)
Theorem retry_exhausted_trace opts w :
  0 ≤ maxTimeout (options_of opts w) →
  minTimeout (options_of opts w) ≤ maxTimeout (options_of opts w) →
  (∀ j, Qc_of_nat j < maxAttempts (options_of opts w) →
        ∃ err, outcome_at fn (store w) j = Throws err) →
  ∃ c0 w' n,
    retry rnd fn opts w =
      Some (Rejected (RetryError c0 (maxAttempts (options_of opts w))), w') ∧
    n = Z.to_nat (Qceiling (maxAttempts (options_of opts w))) ∧
    invocations (trace w') = (invocations (trace w) + n)%nat ∧
    trace w' = trace w ++ retry_schedule rnd (options_of opts w) (draws w) n ∧
    ((n = 0%nat ∧ c0 = VUndefined) ∨
     (∃ k, n = S k ∧ outcome_at fn (store w) k = Throws c0)).
Proof.
  intros H1 H2 Hfail.
  destruct (retry_spec opts w H1 H2) as (c & w' & n & -> & Hcase).
  destruct Hcase as [(v' & k' & -> & -> & Hk' & Hok' & _)
                    |(c0 & -> & -> & _ & Hlast & Htr & _)].
  - apply Qc_of_nat_lt_budget in Hk'.
    destruct (Hfail k' Hk') as [e He]. congruence.
  - exists c0, w', (attempt_budget (maxAttempts (options_of opts w))).
    split_and!; [done | done | | done | done].
    by rewrite Htr, invocations_app, invocations_retry_schedule.
Qed.

(** X3.  What a fulfilled call tells: the options passed both checks, the value
    is what the last invocation returned, every invocation before it threw,
    and its index is below [maxAttempts]. *)
Theorem retry_fulfilled_inv opts w v w' :
  retry rnd fn opts w = Some (Fulfilled v, w') →
  0 ≤ maxTimeout (options_of opts w) ∧
  minTimeout (options_of opts w) ≤ maxTimeout (options_of opts w) ∧
  ∃ k,
    Qc_of_nat k < maxAttempts (options_of opts w) ∧
    outcome_at fn (store w) k = Returns v ∧
    (∀ j, (j < k)%nat → ∃ err, outcome_at fn (store w) j = Throws err) ∧
    invocations (trace w') = (invocations (trace w) + S k)%nat ∧
    length (sleeps (trace w')) = (length (sleeps (trace w)) + k)%nat.
Proof.
  intros Hrun.
  destruct (decide (0 ≤ maxTimeout (options_of opts w))) as [H1|H1];
    [destruct (decide (minTimeout (options_of opts w)
                       ≤ maxTimeout (options_of opts w))) as [H2|H2]|].
  - split_and!; [done | done |].
    destruct (retry_spec opts w H1 H2) as (c & w1 & n & Hr & Hcase).
    rewrite Hr in Hrun.
    destruct Hcase as [(v' & k & -> & -> & Hk & Hok & Hfail & Htr & _)
                      |(c0 & -> & _)]; [|done].
    simplify_eq. exists k. split_and!; [ | done | done | |].
    + by apply Qc_of_nat_lt_budget.
    + rewrite Htr, !invocations_app, invocations_retry_schedule. cbn. lia.
    + rewrite Htr, !sleeps_app, !length_app, sleeps_retry_schedule.
      rewrite length_map, length_seq. cbn. lia.
  - destruct (retry_rejected_early rnd fn opts w) as [msg Hr].
    { right. by apply Qclt_nge. }
    congruence.
  - destruct (retry_rejected_early rnd fn opts w) as [msg Hr].
    { left. by apply Qclt_nge. }
    congruence.
Qed.

(** X4.  What a [RetryError] tells: the options passed both checks, the count is
    [maxAttempts] as given, the operation was invoked once for every
    natural number below [maxAttempts] and threw every time, each
    invocation was followed by a delay, and the cause is what the last
    invocation threw, or [undefined] if there was none. *)
Theorem retry_error_inv opts w cause count w' :
  retry rnd fn opts w = Some (Rejected (RetryError cause count), w') →
  0 ≤ maxTimeout (options_of opts w) ∧
  minTimeout (options_of opts w) ≤ maxTimeout (options_of opts w) ∧
  count = maxAttempts (options_of opts w) ∧
  ∃ n,
    n = Z.to_nat (Qceiling (maxAttempts (options_of opts w))) ∧
    invocations (trace w') = (invocations (trace w) + n)%nat ∧
    length (sleeps (trace w')) = (length (sleeps (trace w)) + n)%nat ∧
    (∀ j, (j < n)%nat → ∃ err, outcome_at fn (store w) j = Throws err) ∧
    ((n = 0%nat ∧ cause = VUndefined) ∨
     (∃ k, n = S k ∧ outcome_at fn (store w) k = Throws cause)).
Proof.
  intros Hrun.
  destruct (decide (0 ≤ maxTimeout (options_of opts w))) as [H1|H1];
    [destruct (decide (minTimeout (options_of opts w)
                       ≤ maxTimeout (options_of opts w))) as [H2|H2]|].
  - destruct (retry_spec opts w H1 H2) as (c & w1 & n & Hr & Hcase).
    rewrite Hr in Hrun.
    destruct Hcase as [(v' & k & -> & _)
                      |(c0 & -> & -> & Hfail & Hlast & Htr & _)]; [done|].
    simplify_eq. split_and!; [done | done | done |].
    eexists. split_and!; [done | | | done | done].
    + by rewrite Htr, invocations_app, invocations_retry_schedule.
    + rewrite Htr, sleeps_app, length_app, sleeps_retry_schedule.
      by rewrite length_map, length_seq.
  - destruct (retry_rejected_early rnd fn opts w) as [msg Hr].
    { right. by apply Qclt_nge. }
    congruence.
  - destruct (retry_rejected_early rnd fn opts w) as [msg Hr].
    { left. by apply Qclt_nge. }
    congruence.
Qed.

End Runs.

(** ** Growth of the backoff cap *)

Lemma Qc_of_nat_S (n : nat) : Qc_of_nat (S n) = Qc_of_nat n + 1.
Proof.
  unfold Qc_of_nat. by rewrite Nat2Z.inj_succ, <- Z.add_1_r, Z2Qc_inj_add,
    Z2Qc_inj_1.
Qed.

Lemma Qc_of_nat_nonneg (n : nat) : 0 ≤ Qc_of_nat n.
Proof. rewrite <- Z2Qc_inj_0. apply (Qc_of_nat_le 0). lia. Qed.

(** Bernoulli's inequality. *)
Lemma Qcpower_bernoulli (d : Qc) (n : nat) :
  0 ≤ d → 1 + Qc_of_nat n * d ≤ (1 + d) ^ n.
Proof.
  intros Hd. induction n as [|n IH].
  - cbn. change (Qc_of_nat 0) with (Qc_of_Z 0).
    rewrite Z2Qc_inj_0, Qcmult_0_l, Qcplus_0_r. done.
  - cbn [Qcpower].
    apply Qcle_trans with ((1 + d) * (1 + Qc_of_nat n * d)).
    + rewrite Qc_of_nat_S.
      replace ((1 + d) * (1 + Qc_of_nat n * d))
        with (1 + (Qc_of_nat n + 1) * d + Qc_of_nat n * d * d) by ring.
      rewrite <- (Qcplus_0_r (1 + (Qc_of_nat n + 1) * d)) at 1.
      apply Qcplus_le_mono_l.
      repeat apply Qcmult_nonneg_nonneg; auto using Qc_of_nat_nonneg.
    + apply Qcmult_le_mono_nonneg_l; [|done].
      apply Qcle_trans with 1; [done|].
      rewrite <- (Qcplus_0_r 1) at 1. by apply Qcplus_le_mono_l.
Qed.

Lemma nat_above (x : Qc) : ∃ n : nat, x ≤ Qc_of_nat n.
Proof.
  exists (Z.to_nat (Qceiling x)). unfold Qc_of_nat, Qcle; simpl.
  eapply Qle_trans; [apply Qle_ceiling|].
  rewrite <- Zle_Qle. lia.
Qed.

(** A multiplier above [1] takes any positive base past any cap. *)
Lemma Qcpower_reaches (cap base mult : Qc) :
  1 < mult → 0 < base → ∃ n : nat, cap ≤ base * mult ^ n.
Proof.
  intros Hm Hb.
  assert (Hd : 0 < mult - 1).
  { apply (Qcplus_lt_mono_r _ _ 1). by replace (mult - 1 + 1) with mult by ring. }
  assert (Hbd : 0 < base * (mult - 1)) by (by apply Qcmult_pos_pos).
  destruct (nat_above (cap / (base * (mult - 1)))) as [n Hn].
  exists n.
  apply (Qcmult_le_mono_pos_r _ _ _ Hbd) in Hn.
  rewrite (Qcmult_comm (cap / _)), Qcmult_div_r in Hn
    by (intros E; rewrite E in Hbd; by apply Qclt_not_eq in Hbd).
  apply Qcle_trans with (Qc_of_nat n * (base * (mult - 1))); [done|].
  apply Qcle_trans with (base * (1 + Qc_of_nat n * (mult - 1))).
  - replace (base * (1 + Qc_of_nat n * (mult - 1)))
      with (Qc_of_nat n * (base * (mult - 1)) + base) by ring.
    rewrite <- (Qcplus_0_r (Qc_of_nat n * _)) at 1.
    apply Qcplus_le_mono_l. by apply Qclt_le_weak.
  - apply Qcmult_le_mono_nonneg_l; [by apply Qclt_le_weak|].
    replace mult with (1 + (mult - 1)) at 2 by ring.
    apply Qcpower_bernoulli. by apply Qclt_le_weak.
Qed.


Lemma Qcpower_mono (q : Qc) (i j : nat) :
  1 ≤ q → (i ≤ j)%nat → q ^ i ≤ q ^ j.
Proof.
  intros Hq Hij. induction Hij as [|j Hij IH]; [done|].
  apply Qcle_trans with (q ^ j); [done|]. cbn.
  rewrite <- (Qcmult_1_l (q ^ j)) at 1.
  apply Qcmult_le_compat_r; [done|].
  apply Qcpower_pos. by apply Qcle_trans with 1.
Qed.

Section Growth.

Context {St : Type}.
Variable rnd : nat → Qc.

Implicit Types (w : World St) (cap base mult : Qc) (i j : nat).


(** X11.  With a multiplier above [1] and a positive base, the backoff reaches
    the cap: from some attempt index on it is [random() * cap]. *)
Theorem backoff_reaches_cap cap base mult :
  1 < mult → 0 < base →
  ∃ n, ∀ i w, (n ≤ i)%nat →
    (_exponentialBackoffWithJitter rnd cap base i mult w).1 =
    rnd (draws w) * cap.
Proof.
  intros Hm Hb.
  destruct (Qcpower_reaches cap base mult Hm Hb) as [n Hn].
  exists n. intros i w Hi. rewrite backoff_value. f_equal.
  apply Math_min_left.
  apply Qcle_trans with (base * mult ^ n); [done|].
  apply Qcmult_le_mono_nonneg_l; [by apply Qclt_le_weak|].
  apply Qcpower_mono; [by apply Qclt_le_weak | done].
Qed.

End Growth.

(** ** The checks, the attempts and the delays of every call *)

Section Calls.

Context {St : Type}.
Variable rnd : nat → Qc.
Variable fn : Operation St.

Implicit Types (w : World St) (opts : option positive).


(** X6.  The check of [maxTimeout] comes first: its message is the one reported
    whenever [maxTimeout < 0], also when [minTimeout > maxTimeout] holds as
    well; the message about [minTimeout] is reported otherwise. *)
Theorem retry_precondition_message opts w :
  maxTimeout (options_of opts w) < 0 ∨
  minTimeout (options_of opts w) > maxTimeout (options_of opts w) →
  retry rnd fn opts w =
  Some (Rejected
          (PreconditionError
             (if decide (maxTimeout (options_of opts w) < 0)
              then "maxTimeout is less than 0"
              else "minTimeout is greater than maxTimeout")), w).
Proof.
  intros H. unfold retry, assert. fold (options_of opts w).
  case_decide as Hneg.
  - by rewrite bool_decide_eq_false_2 by (by apply Qclt_nge).
  - destruct H as [H|H]; [done|].
    rewrite bool_decide_eq_true_2 by (by apply Qcle_ngt).
    by rewrite bool_decide_eq_false_2 by (by apply Qclt_nge).
Qed.




End Calls.

(** ** The options are read once *)

Section Snapshot.

Context {St : Type}.
Variable rnd : nat → Qc.
Variable fn : Operation St.
Variable g : Store St → gmap positive RetryOptions.

Implicit Types (w : World St) (opts : option positive).

Lemma attempts_with_heap options fuel : ∀ i timeout error w1 w2,
  heap_blind fn →
  priv (store w1) = priv (store w2) →
  trace w1 = trace w2 →
  draws w1 = draws w2 →
  match attempts rnd fuel fn options i timeout error w1,
        attempts rnd fuel (with_heap fn g) options i timeout error w2 with
  | Some (c1, w1'), Some (c2, w2') =>
      c1 = c2 ∧ priv (store w1') = priv (store w2') ∧
      trace w1' = trace w2' ∧ draws w1' = draws w2'
  | None, None => True
  | _, _ => False
  end.
Proof.
  induction fuel as [|fuel IH]; intros i timeout error w1 w2 Hblind Hp Ht Hd;
    rewrite !attempts_unfold; case_decide; try done.
  unfold call, with_heap.
  destruct (Hblind (store w1) (store w2) Hp) as [Ho Hp'].
  destruct (fn (store w1)) as [o1 s1], (fn (store w2)) as [o2 s2].
  cbn in Ho, Hp'; subst o2.
  destruct o1 as [v|err]; cbn.
  - by rewrite Ht.
  - rewrite Ht, Hd. by apply IH.
Qed.

(** X12.  An operation whose outcome does not depend on the option objects can
    rewrite them at will while the call runs: the call completes in the
    same way, with the same invocations and the same delays, as when the
    objects are left alone.  What [retry] uses of [opts] is what it read
    on entry. *)
Theorem retry_reads_options_once opts w :
  heap_blind fn →
  ∃ c w1 w2,
    retry rnd fn opts w = Some (c, w1) ∧
    retry rnd (with_heap fn g) opts w = Some (c, w2) ∧
    trace w1 = trace w2 ∧
    priv (store w1) = priv (store w2).
Proof.
  intros Hblind.
  destruct (retry_run rnd fn opts w) as (c & w1 & n & Hr & _).
  exists c, w1. revert Hr. unfold retry.
  destruct (assert _ _); [intros; simplify_eq; by eexists|].
  destruct (assert _ _); [intros; simplify_eq; by eexists|].
  intros Hr.
  pose proof (attempts_with_heap (spread defaultRetryOptions (deref opts w))
                (attempt_budget
                   (maxAttempts (spread defaultRetryOptions (deref opts w))))
                0 (minTimeout (spread defaultRetryOptions (deref opts w)))
                VUndefined w w Hblind eq_refl eq_refl eq_refl) as Hsim.
  cbv zeta in Hr. rewrite Hr in Hsim.
  destruct (attempts rnd _ (with_heap fn g) _ _ _ _ _) as [[c2 w2]|];
    [|done].
  destruct Hsim as (-> & Hp & Ht & _). by exists w2.
Qed.

End Snapshot.

(** ** The further properties at concrete runs *)

Lemma retry_success_trace_witness :
  ∃ w',
    retry coin fails_twice None (w0 0%nat ∅) = Some (Fulfilled (VStr "ok"), w') ∧
    trace w' =
      trace (w0 0%nat ∅) ++
      retry_schedule coin (options_of None (w0 0%nat ∅))
        (draws (w0 0%nat ∅)) 2 ++ [Invoke] ∧
    sleeps (trace w') =
      sleeps (trace (w0 0%nat ∅)) ++
      map (retry_delay coin (options_of None (w0 0%nat ∅))
             (draws (w0 0%nat ∅))) (seq 0 2) ∧
    draws w' = (draws (w0 0%nat ∅) + 2)%nat.
Proof.
  apply (retry_success_trace coin fails_twice None (w0 0%nat ∅) 2).
  - compute_done.
  - compute_done.
  - intros [|[|j]] Hj; [by eexists | by eexists | lia].
  - reflexivity.
  - compute_done.
Defined.

Lemma retry_exhausted_trace_witness :
  ∃ c0 w' n,
    retry coin always_fails (Some 1%positive)
      (w0 () {[1%positive := fractional_attempts]}) =
      Some (Rejected
              (RetryError c0
                 (maxAttempts
                    (options_of (Some 1%positive)
                       (w0 () {[1%positive := fractional_attempts]})))), w') ∧
    n = Z.to_nat
          (Qceiling
             (maxAttempts
                (options_of (Some 1%positive)
                   (w0 () {[1%positive := fractional_attempts]})))) ∧
    invocations (trace w') =
      (invocations (trace (w0 () {[1%positive := fractional_attempts]})) + n)%nat ∧
    trace w' =
      trace (w0 () {[1%positive := fractional_attempts]}) ++
      retry_schedule coin
        (options_of (Some 1%positive)
           (w0 () {[1%positive := fractional_attempts]}))
        (draws (w0 () {[1%positive := fractional_attempts]})) n ∧
    ((n = 0%nat ∧ c0 = VUndefined) ∨
     (∃ k, n = S k ∧
           outcome_at always_fails
             (store (w0 () {[1%positive := fractional_attempts]})) k =
           Throws c0)).
Proof.
  apply (retry_exhausted_trace coin always_fails (Some 1%positive)
           (w0 () {[1%positive := fractional_attempts]})).
  - compute_done.
  - compute_done.
  - intros j _. by eexists.
Defined.

Lemma retry_fulfilled_inv_witness :
  0 ≤ maxTimeout (options_of None (w0 0%nat ∅)) ∧
  minTimeout (options_of None (w0 0%nat ∅))
    ≤ maxTimeout (options_of None (w0 0%nat ∅)) ∧
  ∃ k,
    Qc_of_nat k < maxAttempts (options_of None (w0 0%nat ∅)) ∧
    outcome_at fails_twice (store (w0 0%nat ∅)) k = Returns (VStr "ok") ∧
    (∀ j, (j < k)%nat →
          ∃ err, outcome_at fails_twice (store (w0 0%nat ∅)) j = Throws err) ∧
    invocations
      (trace {| store := {| priv := 3%nat; heap := ∅ |};
                trace := retry_schedule coin defaultRetryOptions 0 2
                         ++ [Invoke];
                draws := 2 |}) =
      (invocations (trace (w0 0%nat ∅)) + S k)%nat ∧
    length
      (sleeps
         (trace {| store := {| priv := 3%nat; heap := ∅ |};
                   trace := retry_schedule coin defaultRetryOptions 0 2
                            ++ [Invoke];
                   draws := 2 |})) =
      (length (sleeps (trace (w0 0%nat ∅))) + k)%nat.
Proof.
  apply (retry_fulfilled_inv coin fails_twice None (w0 0%nat ∅) (VStr "ok")
           {| store := {| priv := 3%nat; heap := ∅ |};
              trace := retry_schedule coin defaultRetryOptions 0 2 ++ [Invoke];
              draws := 2 |}).
  reflexivity.
Defined.

Lemma retry_error_inv_witness :
  0 ≤ maxTimeout
        (options_of (Some 1%positive)
           (w0 () {[1%positive := fractional_attempts]})) ∧
  minTimeout
    (options_of (Some 1%positive)
       (w0 () {[1%positive := fractional_attempts]}))
    ≤ maxTimeout
        (options_of (Some 1%positive)
           (w0 () {[1%positive := fractional_attempts]})) ∧
  Q2Qc (5 # 2) =
    maxAttempts
      (options_of (Some 1%positive)
         (w0 () {[1%positive := fractional_attempts]})) ∧
  ∃ n,
    n = Z.to_nat
          (Qceiling
             (maxAttempts
                (options_of (Some 1%positive)
                   (w0 () {[1%positive := fractional_attempts]})))) ∧
    invocations
      (trace {| store := {| priv := (); heap := {[1%positive := fractional_attempts]} |};
                trace := retry_schedule coin
                           (options_of (Some 1%positive)
                              (w0 () {[1%positive := fractional_attempts]}))
                           0 3;
                draws := 3 |}) =
      (invocations (trace (w0 () {[1%positive := fractional_attempts]})) + n)%nat ∧
    length
      (sleeps
         (trace {| store := {| priv := (); heap := {[1%positive := fractional_attempts]} |};
                   trace := retry_schedule coin
                              (options_of (Some 1%positive)
                                 (w0 () {[1%positive := fractional_attempts]}))
                              0 3;
                   draws := 3 |})) =
      (length (sleeps (trace (w0 () {[1%positive := fractional_attempts]}))) + n)%nat ∧
    (∀ j, (j < n)%nat →
          ∃ err,
            outcome_at always_fails
              (store (w0 () {[1%positive := fractional_attempts]})) j =
            Throws err) ∧
    ((n = 0%nat ∧ VStr "boom" = VUndefined) ∨
     (∃ k, n = S k ∧
           outcome_at always_fails
             (store (w0 () {[1%positive := fractional_attempts]})) k =
           Throws (VStr "boom"))).
Proof.
  apply (retry_error_inv coin always_fails (Some 1%positive)
           (w0 () {[1%positive := fractional_attempts]})
           (VStr "boom") (Q2Qc (5 # 2))
           {| store := {| priv := (); heap := {[1%positive := fractional_attempts]} |};
              trace := retry_schedule coin
                         (options_of (Some 1%positive)
                            (w0 () {[1%positive := fractional_attempts]}))
                         0 3;
              draws := 3 |}).
  reflexivity.
Defined.

Lemma retry_precondition_message_witness :
  retry coin always_fails (Some 1%positive)
    (w0 () {[1%positive := negative_maxTimeout]}) =
  Some (Rejected
          (PreconditionError
             (if decide
                   (maxTimeout
                      (options_of (Some 1%positive)
                         (w0 () {[1%positive := negative_maxTimeout]})) < 0)
              then "maxTimeout is less than 0"
              else "minTimeout is greater than maxTimeout")),
        w0 () {[1%positive := negative_maxTimeout]}).
Proof.
  apply (retry_precondition_message coin always_fails (Some 1%positive)
           (w0 () {[1%positive := negative_maxTimeout]})).
  right. compute_done.
Defined.




Lemma backoff_reaches_cap_witness :
  ∃ n, ∀ i (w : World unit), (n ≤ i)%nat →
    (_exponentialBackoffWithJitter coin (Qc_of_Z 60000) (Qc_of_Z 1000) i
       (Qc_of_Z 2) w).1 =
    coin (draws w) * Qc_of_Z 60000.
Proof.
  apply (backoff_reaches_cap (St := unit) coin (Qc_of_Z 60000) (Qc_of_Z 1000)
           (Qc_of_Z 2)).
  - compute_done.
  - compute_done.
Defined.

Lemma retry_reads_options_once_witness :
  ∃ c w1 w2,
    retry coin fails_twice (Some 1%positive)
      (w0 0%nat {[1%positive := explicit_defaults]}) = Some (c, w1) ∧
    retry coin
      (with_heap fails_twice (λ s, <[1%positive := no_attempts]> (heap s)))
      (Some 1%positive)
      (w0 0%nat {[1%positive := explicit_defaults]}) = Some (c, w2) ∧
    trace w1 = trace w2 ∧
    priv (store w1) = priv (store w2).
Proof.
  apply (retry_reads_options_once coin fails_twice
           (λ s, <[1%positive := no_attempts]> (heap s)) (Some 1%positive)
           (w0 0%nat {[1%positive := explicit_defaults]})).
  intros s1 s2 H. unfold fails_twice. cbn. rewrite H.
  by case_decide.
Defined.
